(** * Verification of the [refine] instantiation generator and of the
      refinement kernel it instantiates (raft, cpp/src/neighbors).

    Part one embeds [refine_00_generate.py]: the header text, the table of
    types, the loop that writes one [.cu] file per table entry, together with
    enough of the C preprocessor to read the generated files back.

    Part two models the kernel [raft::neighbors::refine] whose explicit
    instantiations the generated files request. *)

From Stdlib Require Import ZArith Lia Ascii String.
From stdpp Require Import base list gmap strings sorting.

Open Scope Z_scope.

(* ===================================================================== *)
(** ** Part one: the generator script                                      *)
(* ===================================================================== *)

Module Generator.

(** Characters that cannot be written inside a literal. *)
Definition nl : string := String "010"%char EmptyString.
Definition dq : string := String "034"%char EmptyString.

(** [header]: the triple-quoted literal of the script, one entry per line.
    In the script every line of the macro ends in an escaped backslash, which
    Python reads as a single backslash character. *)
Definition header_lines : list string :=
  [ EmptyString;
    "/*";
    " * Copyright (c) 2023, NVIDIA CORPORATION.";
    " *";
    " * Licensed under the Apache License, Version 2.0 (the " +:+ dq +:+ "License" +:+ dq +:+ ");";
    " * you may not use this file except in compliance with the License.";
    " * You may obtain a copy of the License at";
    " *";
    " *     http://www.apache.org/licenses/LICENSE-2.0";
    " *";
    " * Unless required by applicable law or agreed to in writing, software";
    " * distributed under the License is distributed on an " +:+ dq +:+ "AS IS" +:+ dq +:+ " BASIS,";
    " * WITHOUT WARRANTIES OR CONDITIONS OF ANY KIND, either express or implied.";
    " * See the License for the specific language governing permissions and";
    " * limitations under the License.";
    " */";
    EmptyString;
    "#include <raft/neighbors/refine-inl.cuh>";
    EmptyString;
    "#define instantiate_raft_neighbors_refine(idx_t, data_t, distance_t, matrix_idx)       \";
    "  template void raft::neighbors::refine<idx_t, data_t, distance_t, matrix_idx>(        \";
    "    raft::device_resources const& handle,                                              \";
    "    raft::device_matrix_view<const data_t, matrix_idx, row_major> dataset,             \";
    "    raft::device_matrix_view<const data_t, matrix_idx, row_major> queries,             \";
    "    raft::device_matrix_view<const idx_t, matrix_idx, row_major> neighbor_candidates,  \";
    "    raft::device_matrix_view<idx_t, matrix_idx, row_major> indices,                    \";
    "    raft::device_matrix_view<distance_t, matrix_idx, row_major> distances,             \";
    "    raft::distance::DistanceType metric);                                              \";
    "                                                                                       \";
    "  template void raft::neighbors::refine<idx_t, data_t, distance_t, matrix_idx>(        \";
    "    raft::device_resources const& handle,                                              \";
    "    raft::host_matrix_view<const data_t, matrix_idx, row_major> dataset,               \";
    "    raft::host_matrix_view<const data_t, matrix_idx, row_major> queries,               \";
    "    raft::host_matrix_view<const idx_t, matrix_idx, row_major> neighbor_candidates,    \";
    "    raft::host_matrix_view<idx_t, matrix_idx, row_major> indices,                      \";
    "    raft::host_matrix_view<distance_t, matrix_idx, row_major> distances,               \";
    "    raft::distance::DistanceType metric);";
    EmptyString ].

(** Every line of the literal is followed by a newline. *)
Definition unlines (ls : list string) : string :=
  foldr (fun l acc => l +:+ nl +:+ acc) EmptyString ls.

Definition header : string := unlines header_lines.

(** [types = dict(...)]: a Python dict iterates in insertion order, so the
    table is kept as an association list. *)
Definition types : list (string * (string * string)) :=
  [ ("float_float", ("float", "float"));
    ("int8_t_float", ("int8_t", "float"));
    ("uint8_t_float", ("uint8_t", "float")) ].

(** The file system and the standard output the script acts on. [opened]
    logs the paths passed to [open(path, "w")], oldest first. *)
Record world := World {
  files : gmap string string;
  stdout : string;
  opened : list string
}.

(** [open(path, "w")] creates the file or truncates it. *)
Definition open_w (path : string) (w : world) : world :=
  World (<[path := EmptyString]> (files w)) (stdout w) (opened w ++ [path]).

(** [f.write(s)] appends to the file behind the handle. *)
Definition write (path s : string) (w : world) : world :=
  World (alter (fun old => old +:+ s) path (files w)) (stdout w) (opened w).

(** [print(s)] writes [s] and a newline to the standard output. *)
Definition print (s : string) (w : world) : world :=
  World (files w) (stdout w +:+ s +:+ nl) (opened w).

Definition macro_name : string := "instantiate_raft_neighbors_refine".

(** The two f-strings written after the header. *)
Definition instantiation_line (data_t distance_t : string) : string :=
  macro_name +:+ "(int64_t, " +:+ data_t +:+ ", " +:+ distance_t
    +:+ ", int64_t);" +:+ nl +:+ nl.

Definition undef_line : string := "#undef " +:+ macro_name +:+ nl.

Definition cu_path (type_path : string) : string :=
  "refine_" +:+ type_path +:+ ".cu".

(** One iteration of the [for] loop. *)
Definition generate_one (w : world) (entry : string * (string * string)) : world :=
  let '(type_path, (data_t, distance_t)) := entry in
  let path := cu_path type_path in
  let w := open_w path w in
  let w := write path header w in
  let w := write path (instantiation_line data_t distance_t) w in
  let w := write path undef_line w in
  print ("src/neighbors/" +:+ path) w.

(** The whole script. *)
Definition refine_00_generate (w : world) : world :=
  foldl generate_one w types.

(** *** Reading a generated file back

    What the compiler makes of a generated file is decided by the
    preprocessor: the function-like macro of the header binds the arguments
    of the invocation to its parameters by position and substitutes them, as
    whole identifiers, into the replacement list. *)

Fixpoint split_on (sep : ascii) (cur s : string) : list string :=
  match s with
  | EmptyString => [cur]
  | String c s' =>
      if Ascii.eqb c sep then cur :: split_on sep EmptyString s'
      else split_on sep (cur +:+ String c EmptyString) s'
  end.

Definition lines (s : string) : list string := split_on "010"%char EmptyString s.

Fixpoint strip_prefix (p s : string) : option string :=
  match p, s with
  | EmptyString, _ => Some s
  | String a p', String b s' => if Ascii.eqb a b then strip_prefix p' s' else None
  | String _ _, EmptyString => None
  end.

Fixpoint until (stop : ascii) (s : string) : string :=
  match s with
  | EmptyString => EmptyString
  | String c s' => if Ascii.eqb c stop then EmptyString else String c (until stop s')
  end.

Fixpoint after (stop : ascii) (s : string) : string :=
  match s with
  | EmptyString => EmptyString
  | String c s' => if Ascii.eqb c stop then s' else after stop s'
  end.

Fixpoint trim_left (s : string) : string :=
  match s with
  | String c s' => if Ascii.eqb c " "%char then trim_left s' else s
  | EmptyString => EmptyString
  end.

Definition trim (s : string) : string :=
  String.rev (trim_left (String.rev (trim_left s))).

(** The comma-separated items up to the closing character. *)
Definition arguments (close : ascii) (s : string) : list string :=
  trim <$> split_on ","%char EmptyString (until close s).

(** A line continues on the next one when it ends in a backslash. *)
Definition continued (l : string) : option string :=
  match String.rev l with
  | String c r => if Ascii.eqb c "\"%char then Some (String.rev r) else None
  | EmptyString => None
  end.

(** The replacement list of a definition that starts on the first of [ls]:
    the continuation lines, spliced without their backslashes. *)
Fixpoint replacement_list (first : string) (ls : list string) : list string :=
  match continued first with
  | None => [first]
  | Some l =>
      match ls with
      | [] => [l]
      | next :: ls' => l :: replacement_list next ls'
      end
  end.

Record macro := Macro { params : list string; body : list string }.

(** The definition of [macro_name] in a file, if there is one. *)
Fixpoint find_define (ls : list string) : option macro :=
  match ls with
  | [] => None
  | l :: ls' =>
      match strip_prefix ("#define " +:+ macro_name +:+ "(") l with
      | Some rest =>
          Some (Macro (arguments ")"%char rest)
                      (replacement_list (after ")"%char rest) ls'))
      | None => find_define ls'
      end
  end.

(** The argument lists of the invocations of [macro_name] in a file. *)
Definition invocations (ls : list string) : list (list string) :=
  omap (fun l => arguments ")"%char <$> strip_prefix (macro_name +:+ "(") l) ls.

Definition is_ident_char (c : ascii) : bool :=
  let n := nat_of_ascii c in
  ((48 <=? n) && (n <=? 57) || (65 <=? n) && (n <=? 90)
   || (97 <=? n) && (n <=? 122) || (n =? 95))%nat.

Fixpoint assoc (k : string) (kvs : list (string * string)) : option string :=
  match kvs with
  | [] => None
  | (k', v) :: kvs' => if String.eqb k k' then Some v else assoc k kvs'
  end.

Definition replace_ident (sigma : list (string * string)) (id : string) : string :=
  default id (assoc id sigma).

(** Substitution of whole identifiers; [cur] is the identifier being read. *)
Fixpoint substitute (sigma : list (string * string)) (cur s : string) : string :=
  match s with
  | EmptyString => replace_ident sigma cur
  | String c s' =>
      if is_ident_char c then substitute sigma (cur +:+ String c EmptyString) s'
      else replace_ident sigma cur +:+ String c (substitute sigma EmptyString s')
  end.

(** Expansion of one invocation; an invocation with the wrong number of
    arguments does not expand. *)
Definition expand (m : macro) (args : list string) : option (list string) :=
  if decide (length (params m) = length args)
  then Some (substitute (zip (params m) args) EmptyString <$> body m)
  else None.

(** The template arguments of every explicit instantiation of
    [raft::neighbors::refine] in a piece of expanded text. *)
Definition template_arguments (ls : list string) : list (list string) :=
  omap (fun l => arguments ">"%char
                   <$> strip_prefix "template void raft::neighbors::refine<" (trim l)) ls.

Inductive mem_space := Host | Device.

(** One matrix parameter of an instantiated signature. *)
Record matrix_param := MatrixParam {
  param_space : mem_space;
  param_const : bool;
  param_elem : string;
  param_index : string;
  param_name : string
}.

Definition read_elem (s : string) : bool * string :=
  match strip_prefix "const " s with
  | Some t => (true, t)
  | None => (false, s)
  end.

Definition read_param (sp : mem_space) (rest : string) : option matrix_param :=
  match arguments ">"%char rest with
  | [elem; index; _] =>
      let '(c, t) := read_elem elem in
      Some (MatrixParam sp c t index (until ","%char (trim (after ">"%char rest))))
  | _ => None
  end.

Definition matrix_params (ls : list string) : list matrix_param :=
  omap (fun l =>
          match strip_prefix "raft::device_matrix_view<" (trim l) with
          | Some rest => read_param Device rest
          | None =>
              match strip_prefix "raft::host_matrix_view<" (trim l) with
              | Some rest => read_param Host rest
              | None => None
              end
          end) ls.

(** All text the preprocessor produces for the invocations of a file. *)
Definition preprocess (content : string) : option (list string) :=
  let ls := lines content in
  match find_define ls with
  | Some m => (@List.concat string) <$> mapM (expand m) (invocations ls)
  | None => None
  end.

(** The script started in an empty directory, as the build uses it. *)
Definition empty_world : world := World ∅ EmptyString [].

Definition generated (type_path : string) : string :=
  default EmptyString (files (refine_00_generate empty_world) !! cu_path type_path).

(** The explicit instantiations a file asks the compiler for, each as its
    list of template arguments. *)
Definition instantiations_of (content : string) : list (list string) :=
  default [] (template_arguments <$> preprocess content).

Definition all_instantiations : list (list string) :=
  mjoin ((fun entry : string * (string * string) =>
            instantiations_of (generated entry.1)) <$> types).

(** The matrix parameters of the signatures a file instantiates. *)
Definition signatures_of (content : string) : list matrix_param :=
  default [] (matrix_params <$> preprocess content).

(** The names a file undefines. *)
Definition undefined_names (ls : list string) : list string :=
  omap (strip_prefix "#undef ") ls.

(** The scalar types the C++ names stand for, with their widths in bits. *)
Inductive scalar := Float32 | Int8 | UInt8 | Int64.

Definition scalar_of (name : string) : option scalar :=
  if String.eqb name "float" then Some Float32
  else if String.eqb name "int8_t" then Some Int8
  else if String.eqb name "uint8_t" then Some UInt8
  else if String.eqb name "int64_t" then Some Int64
  else None.

Definition bits (t : scalar) : nat :=
  match t with
  | Float32 => 32
  | Int8 | UInt8 => 8
  | Int64 => 64
  end.

(** The four axes of an instantiation, in the order of the template
    parameter list [<idx_t, data_t, distance_t, matrix_idx>]. *)
Definition index_type (inst : list string) : option scalar := inst !! 0%nat ≫= scalar_of.
Definition element_type (inst : list string) : option scalar := inst !! 1%nat ≫= scalar_of.
Definition distance_type (inst : list string) : option scalar := inst !! 2%nat ≫= scalar_of.
Definition matrix_index_type (inst : list string) : option scalar :=
  inst !! 3%nat ≫= scalar_of.

(** What the three writes of one iteration leave in its file. *)
Definition file_text (data_t distance_t : string) : string :=
  header +:+ instantiation_line data_t distance_t +:+ undef_line.

(** What the [print] calls of a run add to the output for given paths. *)
Definition announcements (paths : list string) : string :=
  foldr (fun path acc => "src/neighbors/" +:+ path +:+ nl +:+ acc) EmptyString paths.

(** A type name that can stand as one macro argument holds no comma. *)
Fixpoint comma_free (s : string) : bool :=
  match s with
  | EmptyString => true
  | String c s' => negb (Ascii.eqb c ","%char) && comma_free s'
  end.

End Generator.

(* ===================================================================== *)
(** ** Part two: the refinement kernel                                     *)
(* ===================================================================== *)

Module Refine.

(** The body of [raft::neighbors::refine] (raft/neighbors/refine-inl.cuh),
    which the generated files include and instantiate, is not among the
    sources: the generator holds only its two signatures. Every definition of
    this part is therefore modelled from the specification, section by section:
    a distance evaluator (4.1), a top-k selector ordered by distance and then
    by dataset index (4.2), and a driver that validates the call, runs one task
    per query row and writes the output matrices (4.3, 5, 6, 7). Elements,
    indices and distances are integers: this is exact for the [int8_t] and
    [uint8_t] instantiations as long as the sums stay below 2^24; rounding of
    [float] data is outside the model, and so is the cosine metric, which needs
    a square root. *)

(** Modelled from the spec: the metric of a call (3), the missing
    [raft::distance::DistanceType], with the squared Euclidean distance and the
    inner product. *)
Inductive DistanceType := L2Expanded | InnerProduct.

Definition matrix := list (list Z).

(** *** 4.1 Distance evaluator *)

Definition sum (l : list Z) : Z := foldr Z.add 0 l.

Definition l2_expanded (x y : list Z) : Z :=
  sum (zip_with (fun a b => (a - b) * (a - b)) x y).

Definition inner_product (x y : list Z) : Z := sum (zip_with Z.mul x y).

(** Modelled from the spec: the missing distance kernel (4.1). The squared
    Euclidean distance is the sum over the dimensions of the squared
    differences, the inner product the (positive) dot product. *)
Definition distance (metric : DistanceType) (x y : list Z) : Z :=
  match metric with
  | L2Expanded => l2_expanded x y
  | InnerProduct => inner_product x y
  end.

Definition dataset_row (dataset : matrix) (idx : Z) : list Z :=
  default [] (dataset !! Z.to_nat idx).

(** The distance of one candidate from the query. *)
Definition candidate_distance (metric : DistanceType) (dataset : matrix)
    (query : list Z) (idx : Z) : Z :=
  distance metric query (dataset_row dataset idx).

(** Sequential evaluation: one distance per candidate, in candidate order. *)
Definition evaluate (metric : DistanceType) (dataset : matrix)
    (query candidates : list Z) : list Z :=
  candidate_distance metric dataset query <$> candidates.

(** *** 4.2 Top-k selector *)

Inductive polarity := Ascending | Descending.

(** Modelled from the spec: the selection order of a metric (3), smallest
    first for a distance, largest first for a similarity. *)
Definition selection_order (metric : DistanceType) : polarity :=
  match metric with
  | L2Expanded => Ascending
  | InnerProduct => Descending
  end.

Definition better (o : polarity) (d1 d2 : Z) : Prop :=
  match o with
  | Ascending => d1 < d2
  | Descending => d2 < d1
  end.

(** Modelled from the spec: the order of the output of the missing selector
    (4.2). A scored candidate is a pair (distance, dataset index); the better
    distance comes first, and on a tie the lower index. *)
Definition precedes (o : polarity) (p q : Z * Z) : Prop :=
  better o p.1 q.1 ∨ (p.1 = q.1 ∧ p.2 ≤ q.2).

#[global] Instance better_dec o : RelDecision (better o).
Proof. intros d1 d2. destruct o; simpl; apply _. Defined.

#[global] Instance precedes_dec o : RelDecision (precedes o).
Proof. intros p q. unfold precedes. apply _. Defined.

(** Modelled from the spec: the missing selector of the host path (4.2, which
    leaves the algorithm free): a buffer of the k best candidates seen so far,
    kept in order (a bounded priority queue), fed with the candidates one after
    the other. *)
Fixpoint insert_sorted (o : polarity) (x : Z * Z) (l : list (Z * Z)) : list (Z * Z) :=
  match l with
  | [] => [x]
  | y :: l' =>
      if decide (precedes o x y) then x :: l else y :: insert_sorted o x l'
  end.

Definition push_bounded (o : polarity) (k : nat) (buf : list (Z * Z)) (x : Z * Z)
    : list (Z * Z) :=
  take k (insert_sorted o x buf).

Definition select_k_host (o : polarity) (k : nat) (scored : list (Z * Z)) : list (Z * Z) :=
  foldl (push_bounded o k) [] scored.

(** Modelled from the spec: the missing selector of the accelerator path
    (4.2): k rounds, each a reduction that finds the best remaining candidate
    and retires one occurrence of it. *)
Definition best_of (o : polarity) (x : Z * Z) (l : list (Z * Z)) : Z * Z :=
  foldl (fun b y => if decide (precedes o b y) then b else y) x l.

Fixpoint retire (x : Z * Z) (l : list (Z * Z)) : list (Z * Z) :=
  match l with
  | [] => []
  | y :: l' => if decide (x = y) then l' else y :: retire x l'
  end.

Fixpoint select_k_device (o : polarity) (k : nat) (scored : list (Z * Z)) : list (Z * Z) :=
  match k with
  | O => []
  | S k' =>
      match scored with
      | [] => []
      | x :: l =>
          let b := best_of o x l in
          b :: select_k_device o k' (retire b scored)
      end
  end.

(** *** 5 Scheduling *)

(** Modelled from the spec: the missing [raft::device_resources] and the
    parallel loop built on it (5, 6). The execution context stands for the
    environment that decides in which order ready tasks run: whenever several
    tasks are ready, the next entry of [schedule] picks one of them. Every
    context runs every task once. *)
Record device_resources := DeviceResources { schedule : list nat }.

Fixpoint run_order (fuel : nat) (choices ready : list nat) : list nat :=
  match fuel with
  | O => []
  | S fuel' =>
      let j := (hd 0 choices mod length ready)%nat in
      match ready !! j with
      | Some t => t :: run_order fuel' (tl choices) (delete j ready)
      | None => []
      end
  end.

Definition parallel_for {S : Type} (handle : device_resources) (n : nat)
    (body : nat → S → S) (s : S) : S :=
  foldl (fun s i => body i s) s (run_order n (schedule handle) (seq 0 n)).

(** *** 4.3 Refinement driver *)

(** Modelled from the spec: the missing host path for one query (4.3):
    evaluate in candidate order, then select. *)
Definition refine_row_host (metric : DistanceType) (k : nat) (dataset : matrix)
    (query candidates : list Z) : list (Z * Z) :=
  select_k_host (selection_order metric) k
    (zip (evaluate metric dataset query candidates) candidates).

(** Modelled from the spec: the missing accelerator path for one query
    (4.3, 5): one lane per candidate fills the per-query distance buffer, in
    the order the context decides; selection starts once the buffer is
    complete. *)
Definition refine_row_device (handle : device_resources) (metric : DistanceType)
    (k : nat) (dataset : matrix) (query candidates : list Z) : list (Z * Z) :=
  let c := length candidates in
  let lane j (buf : list Z) :=
    <[j := candidate_distance metric dataset query (default 0 (candidates !! j))]> buf in
  select_k_device (selection_order metric) k
    (zip (parallel_for handle c lane (replicate c 0)) candidates).

Definition refine_row (space : Generator.mem_space) (handle : device_resources)
    (metric : DistanceType) (k : nat) (dataset : matrix)
    (query candidates : list Z) : list (Z * Z) :=
  match space with
  | Generator.Host => refine_row_host metric k dataset query candidates
  | Generator.Device => refine_row_device handle metric k dataset query candidates
  end.

(** Modelled from the spec: the task of query [i] in the missing driver
    (4.3, 5): it reads row [i] of the queries and of the candidates and
    overwrites row [i] of both outputs. *)
Definition refine_task (space : Generator.mem_space) (handle : device_resources)
    (metric : DistanceType) (k : nat) (dataset queries candidates : matrix)
    (i : nat) (out : matrix * matrix) : matrix * matrix :=
  let selected :=
    refine_row space handle metric k dataset
      (default [] (queries !! i)) (default [] (candidates !! i)) in
  (<[i := selected.*2]> out.1, <[i := selected.*1]> out.2).

(** *** 6 Matrix views over caller-owned memory *)

(** Modelled from the spec: the missing [raft::host_matrix_view] and
    [raft::device_matrix_view] (6): a memory space, a buffer and the two
    extents of a row-major matrix. *)
Record matrix_view := MatrixView {
  view_space : Generator.mem_space;
  view_buffer : nat;
  extent0 : nat;
  extent1 : nat
}.

Definition shape_ok (v : matrix_view) (M : matrix) : bool :=
  (length M =? extent0 v)%nat && forallb (fun r => (length r =? extent1 v)%nat) M.

(** A view is readable when its buffer exists and has the view's shape. *)
Definition load (mem : gmap nat matrix) (v : matrix_view) : option matrix :=
  match mem !! view_buffer v with
  | Some M => if shape_ok v M then Some M else None
  | None => None
  end.

Definition same_space (a b : Generator.mem_space) : bool :=
  match a, b with
  | Generator.Host, Generator.Host | Generator.Device, Generator.Device => true
  | _, _ => false
  end.

Definition in_range (n : nat) (idx : Z) : bool :=
  (0 <=? idx) && (idx <? Z.of_nat n).

(** Modelled from the spec: the validation of the missing driver (3, 7),
    done before any computation: one memory space for all views, agreeing
    shapes, [k <= c], every candidate index in range. The policy for [k > c]
    and for a candidate out of range, which the specification leaves to the
    implementation, is to reject the call. *)
Definition validate (dataset queries neighbor_candidates indices distances : matrix_view)
    (C : matrix) : bool :=
  same_space (view_space dataset) (view_space queries)
  && same_space (view_space dataset) (view_space neighbor_candidates)
  && same_space (view_space dataset) (view_space indices)
  && same_space (view_space dataset) (view_space distances)
  && (extent1 queries =? extent1 dataset)%nat
  && (extent0 neighbor_candidates =? extent0 queries)%nat
  && (extent0 indices =? extent0 queries)%nat
  && (extent0 distances =? extent0 queries)%nat
  && (extent1 distances =? extent1 indices)%nat
  && (extent1 indices <=? extent1 neighbor_candidates)%nat
  && forallb (forallb (in_range (extent0 dataset))) C.

(** Modelled from the spec: the missing entry point [refine] (4.3, 6), with
    the parameters of the instantiated signatures ([handle], [dataset],
    [queries], [neighbor_candidates], [indices], [distances], [metric]) and
    the memory they refer to. [None] is a rejected call; otherwise the memory
    after the call is returned. *)
Definition refine (handle : device_resources) (mem : gmap nat matrix)
    (dataset queries neighbor_candidates indices distances : matrix_view)
    (metric : DistanceType) : option (gmap nat matrix) :=
  D ← load mem dataset;
  Q ← load mem queries;
  C ← load mem neighbor_candidates;
  I ← load mem indices;
  Ds ← load mem distances;
  if validate dataset queries neighbor_candidates indices distances C then
    let out :=
      parallel_for handle (extent0 queries)
        (refine_task (view_space dataset) handle metric (extent1 indices) D Q C)
        (I, Ds) in
    Some (<[view_buffer distances := out.2]> (<[view_buffer indices := out.1]> mem))
  else None.

(** *** The reference of the brute-force property *)

(** Follows the wording of the property (8): every candidate of the query is
    scored, the scored candidates are sorted, the first k are kept. *)
Definition exact_sort (metric : DistanceType) (dataset : matrix)
    (query candidates : list Z) : list (Z * Z) :=
  merge_sort (precedes (selection_order metric))
    ((fun idx => (candidate_distance metric dataset query idx, idx)) <$> candidates).

Definition brute_force_topk (metric : DistanceType) (k : nat) (dataset : matrix)
    (query candidates : list Z) : list (Z * Z) :=
  take k (exact_sort metric dataset query candidates).

(** The reference for a whole call: one row per query. *)
Definition reference_rows (metric : DistanceType) (k : nat)
    (dataset queries candidates : matrix) (m : nat) : list (list (Z * Z)) :=
  (fun i => brute_force_topk metric k dataset
              (default [] (queries !! i)) (default [] (candidates !! i)))
    <$> seq 0 m.

(** The two output matrices that hold given rows of scored candidates. *)
Definition indices_of (rows : list (list (Z * Z))) : matrix :=
  (fun row : list (Z * Z) => row.*2) <$> rows.

Definition distances_of (rows : list (list (Z * Z))) : matrix :=
  (fun row : list (Z * Z) => row.*1) <$> rows.

(** The call as the brute-force property reads it: the same validation, then
    the reference rows stored in the two outputs. No schedule and no choice
    of execution path enters. *)
Definition exact_refine (mem : gmap nat matrix)
    (dataset queries neighbor_candidates indices distances : matrix_view)
    (metric : DistanceType) : option (gmap nat matrix) :=
  D ← load mem dataset;
  Q ← load mem queries;
  C ← load mem neighbor_candidates;
  I ← load mem indices;
  Ds ← load mem distances;
  if validate dataset queries neighbor_candidates indices distances C then
    let rows := reference_rows metric (extent1 indices) D Q C (extent0 queries) in
    Some (<[view_buffer distances := distances_of rows]>
            (<[view_buffer indices := indices_of rows]> mem))
  else None.

(** The same view over the same buffer, in the other memory space. *)
Definition in_space (space : Generator.mem_space) (v : matrix_view) : matrix_view :=
  MatrixView space (view_buffer v) (extent0 v) (extent1 v).

(** *** A small call, used to exercise the statements below

    Ten dataset rows of dimension two, two queries, four candidates each.
    The first query is the example scenario of the design document (rows 5, 2
    and 9 at distances 1, 4 and 18 of the origin) with row 7 added, which ties
    with row 5. *)
Module Example.

Definition dataset_rows : matrix :=
  [[0; 0]; [0; 0]; [0; 2]; [0; 1]; [4; 4]; [1; 0]; [2; 2]; [1; 0]; [5; 5]; [3; 3]].
Definition query_rows : matrix := [[0; 0]; [1; 1]].
Definition candidate_rows : matrix := [[7; 5; 2; 9]; [3; 7; 7; 4]].

Definition mem : gmap nat matrix :=
  <[0%nat := dataset_rows]> (<[1%nat := query_rows]> (<[2%nat := candidate_rows]>
  (<[3%nat := [[0; 0]; [0; 0]]]> (<[4%nat := [[0; 0]; [0; 0]]]>
  (<[5%nat := [[9]; [9]]]> (<[6%nat := [[9]; [9]]]> ∅)))))).


Definition dataset := MatrixView Generator.Host 0 10 2.
Definition queries := MatrixView Generator.Host 1 2 2.
Definition neighbor_candidates := MatrixView Generator.Host 2 2 4.
Definition indices := MatrixView Generator.Host 3 2 2.
Definition distances := MatrixView Generator.Host 4 2 2.

Definition handle := DeviceResources [].
Definition other_handle := DeviceResources [3; 1; 2; 5]%nat.

End Example.

End Refine.

(* ===================================================================== *)
(** ** Properties of the generator                                         *)
(* ===================================================================== *)

Module GeneratorFacts.
Import Generator.

(** Membership in an explicit list. *)
Ltac in_list := apply list_elem_of_In; simpl; tauto.

Lemma append_assoc (s1 s2 s3 : string) : (s1 +:+ s2) +:+ s3 = s1 +:+ s2 +:+ s3.
Proof.
  induction s1 as [|c s1 IH]; [reflexivity|].
  change (String c ((s1 +:+ s2) +:+ s3) = String c (s1 +:+ s2 +:+ s3)).
  by rewrite IH.
Qed.

(** One iteration leaves the file with exactly the three pieces written to
    it, whatever the file held before, and prints its path. *)
Lemma generate_one_spec w type_path data_t distance_t :
  generate_one w (type_path, (data_t, distance_t))
  = World
      (<[cu_path type_path :=
           header +:+ instantiation_line data_t distance_t +:+ undef_line]> (files w))
      (stdout w +:+ ("src/neighbors/" +:+ cu_path type_path) +:+ nl)
      (opened w ++ [cu_path type_path]).
Proof.
  unfold generate_one, print, write, open_w. simpl. f_equal.
  rewrite !alter_insert_eq. reflexivity.
Qed.

(** The text of one generated file. *)
Lemma generated_eq type_path data_t distance_t :
  (type_path, (data_t, distance_t)) ∈ types →
  generated type_path
  = header +:+ instantiation_line data_t distance_t +:+ undef_line.
Proof.
  unfold types. intros Hin.
  repeat (apply elem_of_cons in Hin as [[= -> -> ->]|Hin]; [vm_compute; reflexivity|]).
  by apply elem_of_nil in Hin.
Qed.

(** C9. The script, started in any state of the file system, opens exactly
    the three files [refine_float_float.cu], [refine_int8_t_float.cu] and
    [refine_uint8_t_float.cu], in the order of the table; afterwards each of
    them consists of the header, one invocation of the macro and one [#undef]
    line, whatever it held before; no other file is touched; and one line
    [src/neighbors/<file>] per file is printed in the same order. The result
    is a function of the initial state alone. *)
Theorem generator_writes_three_files (w : world) :
  let w' := refine_00_generate w in
  let content data_t :=
    header +:+ "instantiate_raft_neighbors_refine(int64_t, " +:+ data_t
      +:+ ", float, int64_t);" +:+ nl +:+ nl
      +:+ "#undef instantiate_raft_neighbors_refine" +:+ nl in
  opened w'
  = opened w ++ ["refine_float_float.cu"; "refine_int8_t_float.cu";
                 "refine_uint8_t_float.cu"]
  ∧ files w' !! "refine_float_float.cu" = Some (content "float")
  ∧ files w' !! "refine_int8_t_float.cu" = Some (content "int8_t")
  ∧ files w' !! "refine_uint8_t_float.cu" = Some (content "uint8_t")
  ∧ (∀ path, path ∉ ["refine_float_float.cu"; "refine_int8_t_float.cu";
                      "refine_uint8_t_float.cu"] →
       files w' !! path = files w !! path)
  ∧ stdout w'
    = stdout w +:+ "src/neighbors/refine_float_float.cu" +:+ nl
        +:+ "src/neighbors/refine_int8_t_float.cu" +:+ nl
        +:+ "src/neighbors/refine_uint8_t_float.cu" +:+ nl
  ∧ Forall (fun data_t =>
              invocations (lines (content data_t))
              = [["int64_t"; data_t; "float"; "int64_t"]]
              ∧ undefined_names (lines (content data_t))
                = ["instantiate_raft_neighbors_refine"]
              ∧ strip_prefix header (content data_t)
                = Some ("instantiate_raft_neighbors_refine(int64_t, " +:+ data_t
                          +:+ ", float, int64_t);" +:+ nl +:+ nl
                          +:+ "#undef instantiate_raft_neighbors_refine" +:+ nl))
      ["float"; "int8_t"; "uint8_t"].
Proof.
  intros w' content. subst w'. unfold refine_00_generate, types. cbn [foldl].
  rewrite !generate_one_spec. cbn [files stdout opened].
  split. { by rewrite <- !app_assoc. }
  split. { rewrite lookup_insert_ne, lookup_insert_ne, lookup_insert_eq; done. }
  split. { rewrite lookup_insert_ne, lookup_insert_eq; done. }
  split. { by rewrite lookup_insert_eq. }
  split.
  { intros path Hpath. rewrite !lookup_insert_ne; [done|..];
      intros <-; apply Hpath; vm_compute; in_list. }
  split. { by rewrite !append_assoc. }
  repeat (apply Forall_cons; split; [vm_compute; done|]). constructor.
Qed.

(** What the preprocessor makes of the three files: two explicit
    instantiations each, the accelerator one and the host one. *)
Lemma all_instantiations_eq :
  all_instantiations
  = [ ["int64_t"; "float"; "float"; "int64_t"];
      ["int64_t"; "float"; "float"; "int64_t"];
      ["int64_t"; "int8_t"; "float"; "int64_t"];
      ["int64_t"; "int8_t"; "float"; "int64_t"];
      ["int64_t"; "uint8_t"; "float"; "int64_t"];
      ["int64_t"; "uint8_t"; "float"; "int64_t"] ].
Proof. vm_compute. reflexivity. Qed.

(** The signatures a file instantiates: the accelerator one, then the host
    one, with the same five matrix parameters. The dataset, the queries and
    the candidates are views of [const] elements; the indices and the
    distances are not. *)
Lemma instantiated_signatures type_path data_t distance_t :
  (type_path, (data_t, distance_t)) ∈ types →
  signatures_of (generated type_path)
  = [Device; Host] ≫= fun space =>
      [ MatrixParam space true data_t "int64_t" "dataset";
        MatrixParam space true data_t "int64_t" "queries";
        MatrixParam space true "int64_t" "int64_t" "neighbor_candidates";
        MatrixParam space false "int64_t" "int64_t" "indices";
        MatrixParam space false distance_t "int64_t" "distances" ].
Proof.
  unfold types. intros Hin.
  repeat (apply elem_of_cons in Hin as [[= -> -> ->]|Hin]; [vm_compute; reflexivity|]).
  by apply elem_of_nil in Hin.
Qed.

Lemma signature_constness entry p :
  entry ∈ types → p ∈ signatures_of (generated entry.1) →
  param_const p = true
  ↔ param_name p ∈ ["dataset"; "queries"; "neighbor_candidates"].
Proof.
  destruct entry as [type_path [data_t distance_t]]. intros Hin. cbn [fst].
  rewrite (instantiated_signatures _ _ _ Hin). simpl. intros Hp.
  repeat (apply elem_of_cons in Hp as [->|Hp];
          [simpl; split;
           [intros Hc; first [discriminate Hc|in_list]
           |intros Hn; first [reflexivity|exfalso];
            repeat (apply elem_of_cons in Hn as [[=]|Hn]);
            by apply elem_of_nil in Hn]|]).
  by apply elem_of_nil in Hp.
Qed.

(** C8. The generated files instantiate the entry point for exactly the
    element types single-precision float, signed 8-bit integer and unsigned
    8-bit integer (one file each, in this order, an accelerator and a host
    instantiation per file); in every instantiation the distance type is
    single-precision float, which is at least as wide as the element type.
    The element type is the one of the dataset and query views, the distance
    type the one of the distance view. *)
Theorem instantiated_element_types :
  (fun entry : string * (string * string) =>
     element_type <$> instantiations_of (generated entry.1)) <$> types
  = [ [Some Float32; Some Float32]; [Some Int8; Some Int8];
      [Some UInt8; Some UInt8] ]
  ∧ (∀ inst, inst ∈ all_instantiations →
       distance_type inst = Some Float32
       ∧ ∃ t, element_type inst = Some t
              ∧ t ∈ [Float32; Int8; UInt8]
              ∧ (bits t ≤ bits Float32)%nat)
  ∧ (∀ t, t ∈ [Float32; Int8; UInt8] →
       ∃ inst, inst ∈ all_instantiations ∧ element_type inst = Some t)
  ∧ (∀ type_path data_t distance_t p,
       (type_path, (data_t, distance_t)) ∈ types →
       p ∈ signatures_of (generated type_path) →
       (param_name p = "dataset" ∨ param_name p = "queries" → param_elem p = data_t)
       ∧ (param_name p = "distances" → param_elem p = "float")).
Proof.
  split; [vm_compute; reflexivity|]. rewrite all_instantiations_eq.
  split; [|split]; cycle 2.
  { intros type_path data_t distance_t p Hin.
    rewrite (instantiated_signatures _ _ _ Hin). simpl. intros Hp.
    assert (distance_t = "float") as ->.
    { unfold types in Hin.
      repeat (apply elem_of_cons in Hin as [[= _ _ ->]|Hin]; [done|]).
      by apply elem_of_nil in Hin. }
    repeat (apply elem_of_cons in Hp as [->|Hp];
            [simpl; split; [intros [Hn|Hn]|intros Hn];
             first [reflexivity|discriminate Hn]|]).
    by apply elem_of_nil in Hp. }
  - intros inst Hin.
    repeat (apply elem_of_cons in Hin as [->|Hin];
            [split; [reflexivity|]; eexists; split; [reflexivity|];
             split; [in_list|simpl; lia]|]).
    by apply elem_of_nil in Hin.
  - intros t Ht. destruct t.
    + exists ["int64_t"; "float"; "float"; "int64_t"]. split; [in_list|done].
    + exists ["int64_t"; "int8_t"; "float"; "int64_t"]. split; [in_list|done].
    + exists ["int64_t"; "uint8_t"; "float"; "int64_t"]. split; [in_list|done].
    + repeat (apply elem_of_cons in Ht as [[=]|Ht]). by apply elem_of_nil in Ht.
Qed.

(** C10. The macro has the four parameters [idx_t], [data_t], [distance_t]
    and [matrix_idx], which it passes on in this order as the template
    arguments of [refine]. Every instantiation the generated files request
    binds [idx_t] and [matrix_idx] to [int64_t] and [distance_t] to [float];
    every matrix view of the instantiated signatures is indexed by [int64_t];
    only [data_t] differs from one file to the next. *)
Theorem instantiations_fix_index_types :
  (params <$> find_define (lines header)
   = Some ["idx_t"; "data_t"; "distance_t"; "matrix_idx"])
  ∧ (template_arguments <$> (body <$> find_define (lines header))
     = Some [ ["idx_t"; "data_t"; "distance_t"; "matrix_idx"];
              ["idx_t"; "data_t"; "distance_t"; "matrix_idx"] ])
  ∧ (∀ inst, inst ∈ all_instantiations →
       inst !! 0%nat = Some "int64_t" ∧ inst !! 3%nat = Some "int64_t"
       ∧ inst !! 2%nat = Some "float"
       ∧ index_type inst = Some Int64 ∧ matrix_index_type inst = Some Int64
       ∧ distance_type inst = Some Float32
       ∧ length inst = 4%nat)
  ∧ (∀ entry p, entry ∈ types → p ∈ signatures_of (generated entry.1) →
       param_index p = "int64_t")
  ∧ (fun inst => inst !! 1%nat) <$> all_instantiations
    = [ Some "float"; Some "float"; Some "int8_t"; Some "int8_t";
        Some "uint8_t"; Some "uint8_t" ].
Proof.
  split; [vm_compute; reflexivity|].
  split; [vm_compute; reflexivity|].
  rewrite all_instantiations_eq.
  split.
  { intros inst Hin.
    repeat (apply elem_of_cons in Hin as [->|Hin]; [by repeat split|]).
    by apply elem_of_nil in Hin. }
  split; [|vm_compute; reflexivity].
  intros entry p He. unfold types in He.
  repeat (apply elem_of_cons in He as [->|He];
          [intros Hp; vm_compute in Hp;
           repeat (apply elem_of_cons in Hp as [->|Hp]; [reflexivity|]);
           by apply elem_of_nil in Hp|]).
  by apply elem_of_nil in He.
Qed.

(** *** The loop over an arbitrary table

    The loop body does not depend on the three entries of [types]; what
    follows holds for any table the loop may be run over. *)

Section any_table.

Implicit Types (table : list (string * (string * string))) (w : world).

Lemma length_append (s1 s2 : string) :
  String.length (s1 +:+ s2) = (String.length s1 + String.length s2)%nat.
Proof.
  induction s1 as [|c s1 IH]; [reflexivity|].
  change (S (String.length (s1 +:+ s2))
          = S (String.length s1 + String.length s2)). by rewrite IH.
Qed.

Lemma append_inj_r (s1 s2 t : string) : s1 +:+ t = s2 +:+ t → s1 = s2.
Proof.
  revert s2. induction s1 as [|c s1 IH]; intros [|c' s2] Heq.
  - reflexivity.
  - apply (f_equal String.length) in Heq.
    change (String c' s2 +:+ t) with (String c' (s2 +:+ t)) in Heq.
    change (EmptyString +:+ t) with t in Heq.
    simpl in Heq. rewrite length_append in Heq. lia.
  - apply (f_equal String.length) in Heq.
    change (String c s1 +:+ t) with (String c (s1 +:+ t)) in Heq.
    change (EmptyString +:+ t) with t in Heq.
    simpl in Heq. rewrite length_append in Heq. lia.
  - change (String c (s1 +:+ t) = String c' (s2 +:+ t)) in Heq.
    injection Heq as -> Heq. f_equal. by apply IH.
Qed.

#[global] Instance cu_path_inj : Inj (=) (=) cu_path.
Proof.
  intros a b Heq. unfold cu_path in Heq.
  apply (inj (String.append "refine_")) in Heq. by apply append_inj_r in Heq.
Qed.

Lemma foldl_generate_one table w :
  foldl generate_one w table
  = World
      (foldl (fun m (e : string * (string * string)) =>
                <[cu_path e.1 := file_text e.2.1 e.2.2]> m) (files w) table)
      (stdout w +:+ announcements (cu_path <$> table.*1))
      (opened w ++ (cu_path <$> table.*1)).
Proof.
  revert w. induction table as [|[tp [d dist]] table IH]; intros w.
  - destruct w as [f o l]. simpl. unfold announcements. simpl. f_equal.
    + clear. induction o as [|c o IH]; [done|].
      change (String c o = String c (o +:+ EmptyString)). by rewrite <- IH.
    + by rewrite app_nil_r.
  - cbn [foldl]. rewrite IH, generate_one_spec. cbn [files stdout opened].
    f_equal.
    + rewrite !fmap_cons. cbn [fst foldr announcements].
      unfold announcements. cbn [foldr]. by rewrite !append_assoc.
    + rewrite !fmap_cons. cbn [fst]. by rewrite <- app_assoc.
Qed.

Lemma loop_lookup_other table (m : gmap string string) path :
  (∀ tp, tp ∈ table.*1 → path ≠ cu_path tp) →
  foldl (fun m (e : string * (string * string)) =>
           <[cu_path e.1 := file_text e.2.1 e.2.2]> m) m table !! path
  = m !! path.
Proof.
  revert m. induction table as [|[tp [d dist]] table IH]; intros m Hno; [done|].
  cbn [foldl]. rewrite IH.
  - cbn [fst]. rewrite lookup_insert_ne; [done|].
    intros Heq. eapply Hno; [|symmetry; exact Heq]. rewrite fmap_cons. left.
  - intros tp' Hin. apply Hno. rewrite fmap_cons. by right.
Qed.

Lemma loop_lookup_entry table (m : gmap string string) tp d dist :
  NoDup table.*1 → (tp, (d, dist)) ∈ table →
  foldl (fun m (e : string * (string * string)) =>
           <[cu_path e.1 := file_text e.2.1 e.2.2]> m) m table !! cu_path tp
  = Some (file_text d dist).
Proof.
  revert m. induction table as [|[tp' [d' dist']] table IH]; intros m Hnd Hin.
  - by apply elem_of_nil in Hin.
  - rewrite fmap_cons in Hnd. apply NoDup_cons in Hnd as [Hfresh Hnd].
    cbn [foldl]. apply elem_of_cons in Hin as [[= -> -> ->]|Hin].
    + rewrite loop_lookup_other.
      * cbn [fst snd]. by rewrite lookup_insert_eq.
      * intros tp Htp Heq. apply (inj cu_path) in Heq. by subst.
    + by apply IH.
Qed.

Lemma key_entry table tp :
  tp ∈ table.*1 → ∃ d dist, (tp, (d, dist)) ∈ table.
Proof.
  intros ([tp' [d dist]] & -> & Hin)%list_elem_of_fmap. by exists d, dist.
Qed.

Lemma entry_key table tp d dist : (tp, (d, dist)) ∈ table → tp ∈ table.*1.
Proof. intros Hin. apply list_elem_of_fmap. by exists (tp, (d, dist)). Qed.

(** The files after the loop, read at any path. *)
Lemma loop_files_agree table table' (m m' : gmap string string) :
  NoDup table.*1 → NoDup table'.*1 →
  (∀ e, e ∈ table ↔ e ∈ table') →
  (∀ path, (∀ tp, tp ∈ table.*1 → path ≠ cu_path tp) → m !! path = m' !! path) →
  foldl (fun m (e : string * (string * string)) =>
           <[cu_path e.1 := file_text e.2.1 e.2.2]> m) m table
  = foldl (fun m (e : string * (string * string)) =>
             <[cu_path e.1 := file_text e.2.1 e.2.2]> m) m' table'.
Proof.
  intros Hnd Hnd' Hsame Hm. apply map_eq. intros path.
  destruct (decide (path ∈ cu_path <$> table.*1)) as [Hin|Hout].
  - apply list_elem_of_fmap in Hin as (tp & -> & Htp).
    destruct (key_entry _ _ Htp) as (d & dist & He).
    rewrite (loop_lookup_entry table m tp d dist) by done.
    rewrite (loop_lookup_entry table' m' tp d dist); [done|done|].
    by apply Hsame.
  - assert (∀ tp, tp ∈ table.*1 → path ≠ cu_path tp) as Hno.
    { intros tp Htp ->. apply Hout. by apply list_elem_of_fmap_2. }
    rewrite !loop_lookup_other; [by apply Hm|..|done].
    intros tp Htp. apply Hno.
    destruct (key_entry _ _ Htp) as (d & dist & He).
    eapply entry_key. by apply Hsame.
Qed.

(** The keys of the script's own table are distinct. *)
Lemma types_keys_NoDup : NoDup types.*1.
Proof. apply (bool_decide_unpack _). by vm_compute. Qed.

(** X1. The loop over any table whose keys are pairwise distinct, from any
    state: afterwards the file [refine_<key>.cu] of every entry holds the
    header, the invocation for the entry's two types and the [#undef] line,
    whatever it held before; a file that belongs to no entry is as it was;
    the files were opened in table order, and the output has grown by one
    line [src/neighbors/<file>] per entry, in the same order. *)
Theorem loop_writes_every_entry table w :
  NoDup table.*1 →
  let w' := foldl generate_one w table in
  (∀ type_path data_t distance_t,
     (type_path, (data_t, distance_t)) ∈ table →
     files w' !! cu_path type_path
     = Some (header +:+ instantiation_line data_t distance_t +:+ undef_line))
  ∧ (∀ path, (∀ type_path, type_path ∈ table.*1 → path ≠ cu_path type_path) →
       files w' !! path = files w !! path)
  ∧ opened w' = opened w ++ (cu_path <$> table.*1)
  ∧ stdout w' = stdout w +:+ announcements (cu_path <$> table.*1).
Proof.
  intros Hnd w'. subst w'. rewrite foldl_generate_one. cbn [files stdout opened].
  split; [|split; [|done]].
  - intros tp d dist Hin. by apply loop_lookup_entry.
  - intros path Hno. by apply loop_lookup_other.
Qed.

Lemma loop_writes_every_entry_witness :
  let w' := foldl generate_one empty_world types in
  (∀ type_path data_t distance_t,
     (type_path, (data_t, distance_t)) ∈ types →
     files w' !! cu_path type_path
     = Some (header +:+ instantiation_line data_t distance_t +:+ undef_line))
  ∧ (∀ path, (∀ type_path, type_path ∈ types.*1 → path ≠ cu_path type_path) →
       files w' !! path = files empty_world !! path)
  ∧ opened w' = opened empty_world ++ (cu_path <$> types.*1)
  ∧ stdout w' = stdout empty_world +:+ announcements (cu_path <$> types.*1).
Proof.
  apply (loop_writes_every_entry types empty_world).
  exact types_keys_NoDup.
Defined.

(** X2. Two different keys never name the same file. *)
Theorem distinct_keys_distinct_files (a b : string) :
  a ≠ b → cu_path a ≠ cu_path b.
Proof. intros Hne Heq. by apply Hne, (inj cu_path). Qed.

Lemma distinct_keys_distinct_files_witness :
  cu_path "float_float" ≠ cu_path "int8_t_float".
Proof. apply (distinct_keys_distinct_files "float_float" "int8_t_float"). discriminate. Defined.

(** X3. The files the loop leaves do not depend on the order in which the
    table is iterated (only the order of the printed lines does): two tables
    with distinct keys that are permutations of each other give the same file
    system from the same state. *)
Theorem files_independent_of_table_order table table' w :
  NoDup table.*1 → table ≡ₚ table' →
  files (foldl generate_one w table) = files (foldl generate_one w table').
Proof.
  intros Hnd Hp. rewrite !foldl_generate_one. cbn [files].
  apply loop_files_agree; [done| |by intros e; rewrite Hp|done].
  by rewrite <- Hp.
Qed.

Lemma files_independent_of_table_order_witness :
  files (foldl generate_one empty_world types)
  = files (foldl generate_one empty_world (reverse types)).
Proof.
  apply (files_independent_of_table_order types (reverse types) empty_world).
  - exact types_keys_NoDup.
  - symmetry. apply reverse_Permutation.
Defined.

(** X4. Running the script again changes no file: from any state, the file
    system after two runs is the one after one run; the second run only opens
    the same three files again and prints the same three lines again. *)
Theorem script_rerun_changes_no_file w :
  files (refine_00_generate (refine_00_generate w)) = files (refine_00_generate w)
  ∧ opened (refine_00_generate (refine_00_generate w))
    = opened (refine_00_generate w) ++ (cu_path <$> types.*1)
  ∧ stdout (refine_00_generate (refine_00_generate w))
    = stdout (refine_00_generate w) +:+ announcements (cu_path <$> types.*1).
Proof.
  unfold refine_00_generate.
  rewrite (foldl_generate_one types (foldl generate_one w types)).
  cbn [files stdout opened]. split; [|done].
  rewrite (foldl_generate_one types w). cbn [files].
  pose proof types_keys_NoDup as Hnd.
  apply loop_files_agree; [done|done|done|].
  intros path Hno. by apply loop_lookup_other.
Qed.

(** X5. The loop never removes a file: over any table and from any state,
    the files that exist afterwards are those that existed before together
    with the files of the table's keys. *)
Theorem loop_creates_and_never_deletes table w :
  dom (files (foldl generate_one w table))
  = dom (files w) ∪ list_to_set (cu_path <$> table.*1).
Proof.
  rewrite foldl_generate_one. cbn [files]. generalize (files w). clear w.
  induction table as [|[tp [d dist]] table IH]; intros m.
  - simpl. by rewrite (right_id_L ∅ (∪)).
  - cbn [foldl]. rewrite IH, dom_insert_L, !fmap_cons. cbn [fst list_to_set].
    apply set_eq. intros path. rewrite !elem_of_union. tauto.
Qed.

(** The first comma of a text splits it in one way only. *)
Lemma append_comma_inj (a b x y : string) :
  comma_free a = true → comma_free b = true →
  a +:+ String ","%char x = b +:+ String ","%char y → a = b ∧ x = y.
Proof.
  revert b. induction a as [|c a IH]; intros [|c' b] Ha Hb Heq.
  - by injection Heq as ->.
  - change (String ","%char x = String c' (b +:+ String ","%char y)) in Heq.
    injection Heq as Hc _. subst c'. by simpl in Hb.
  - change (String c (a +:+ String ","%char x) = String ","%char y) in Heq.
    injection Heq as Hc _. subst c. by simpl in Ha.
  - change (String c (a +:+ String ","%char x)
            = String c' (b +:+ String ","%char y)) in Heq.
    injection Heq as -> Heq. simpl in Ha, Hb.
    apply andb_prop in Ha as [_ Ha]. apply andb_prop in Hb as [_ Hb].
    destruct (IH b Ha Hb Heq) as [-> ->]. done.
Qed.

(** X6. The text of a generated file determines the entry it was generated
    from: two pairs of type names, the element types free of commas, that
    give the same file text are the same pair. *)
Theorem file_text_determines_entry (data_t distance_t data_t' distance_t' : string) :
  comma_free data_t = true → comma_free data_t' = true →
  header +:+ instantiation_line data_t distance_t +:+ undef_line
  = header +:+ instantiation_line data_t' distance_t' +:+ undef_line →
  data_t = data_t' ∧ distance_t = distance_t'.
Proof.
  intros Hd Hd' Heq. apply (inj (String.append header)) in Heq.
  unfold instantiation_line in Heq. rewrite !append_assoc in Heq.
  apply (inj (String.append macro_name)) in Heq.
  apply (inj (String.append "(int64_t, ")) in Heq.
  change (data_t +:+ String ","%char
            (" " +:+ distance_t +:+ ", int64_t);" +:+ nl +:+ nl +:+ undef_line)
          = data_t' +:+ String ","%char
              (" " +:+ distance_t' +:+ ", int64_t);" +:+ nl +:+ nl +:+ undef_line))
    in Heq.
  apply append_comma_inj in Heq as [-> Heq]; [|done..].
  split; [done|].
  apply (inj (String.append " ")) in Heq.
  by apply append_inj_r in Heq.
Qed.

Lemma file_text_determines_entry_witness : "int8_t" = "int8_t" ∧ "float" = "float".
Proof.
  apply (file_text_determines_entry "int8_t" "float" "int8_t" "float");
    reflexivity.
Defined.

End any_table.

End GeneratorFacts.

(* ===================================================================== *)
(** ** Properties of the kernel model                                      *)
(* ===================================================================== *)

Module RefineFacts.
Import Refine.

(** *** The output order is a total order on scored candidates *)

Section order.
Variable o : polarity.

#[global] Instance precedes_total : Total (precedes o).
Proof.
  intros [d1 i1] [d2 i2]. unfold precedes, better. destruct o; simpl; lia.
Qed.

#[global] Instance precedes_trans : Transitive (precedes o).
Proof.
  intros [d1 i1] [d2 i2] [d3 i3]. unfold precedes, better.
  destruct o; simpl; lia.
Qed.

#[global] Instance precedes_antisymm : AntiSymm (=) (precedes o).
Proof.
  intros [d1 i1] [d2 i2]. unfold precedes, better.
  destruct o; simpl; intros H1 H2; f_equal; lia.
Qed.

#[global] Instance precedes_refl : Reflexive (precedes o).
Proof. intros [d i]. unfold precedes. simpl. lia. Qed.

Lemma not_precedes p q : ¬ precedes o p q → precedes o q p.
Proof. destruct (total (precedes o) p q); tauto. Qed.

(** Two orderings of the same candidates by [precedes] coincide. *)
Lemma sorted_unique (l1 l2 : list (Z * Z)) :
  StronglySorted (precedes o) l1 → StronglySorted (precedes o) l2 →
  l1 ≡ₚ l2 → l1 = l2.
Proof. apply StronglySorted_unique, _. Qed.

Lemma merge_sort_sorted (l : list (Z * Z)) :
  StronglySorted (precedes o) (merge_sort (precedes o) l).
Proof. apply StronglySorted_merge_sort; apply _. Qed.

(** *** Host selector *)

Lemma insert_sorted_perm x l : insert_sorted o x l ≡ₚ x :: l.
Proof.
  induction l as [|y l IH]; simpl; [done|].
  case_decide; [done|]. rewrite IH. apply Permutation_swap.
Qed.

Lemma insert_sorted_sorted x l :
  StronglySorted (precedes o) l → StronglySorted (precedes o) (insert_sorted o x l).
Proof.
  induction 1 as [|y l Hl IH Hy]; simpl.
  - repeat constructor.
  - case_decide as Hxy.
    + constructor; [by constructor|].
      constructor; [done|].
      eapply Forall_impl; [exact Hy|]. intros z Hz. by etrans.
    + constructor; [done|].
      rewrite insert_sorted_perm. constructor; [|done].
      by apply not_precedes.
Qed.

(** Dropping what falls off the end of the buffer before or after an
    insertion makes no difference to the first k entries. *)
Lemma take_insert_take k x l :
  take k (insert_sorted o x (take k l)) = take k (insert_sorted o x l).
Proof.
  revert l. induction k as [|k IH]; intros l; [done|].
  destruct l as [|y l]; simpl; [done|].
  case_decide; simpl.
  - f_equal. destruct k; [done|]. simpl. f_equal.
    rewrite take_take. f_equal. lia.
  - by rewrite IH.
Qed.

Lemma foldl_push_bounded k acc l :
  foldl (push_bounded o k) (take k acc) l
  = take k (foldl (fun buf x => insert_sorted o x buf) acc l).
Proof.
  revert acc. induction l as [|x l IH]; intros acc; simpl; [done|].
  unfold push_bounded at 2. by rewrite take_insert_take, IH.
Qed.

Lemma foldl_insert_sorted acc l :
  StronglySorted (precedes o) acc →
  StronglySorted (precedes o) (foldl (fun buf x => insert_sorted o x buf) acc l)
  ∧ foldl (fun buf x => insert_sorted o x buf) acc l ≡ₚ acc ++ l.
Proof.
  revert acc. induction l as [|x l IH]; intros acc Hacc; simpl.
  - by rewrite app_nil_r.
  - destruct (IH (insert_sorted o x acc)) as [Hs Hp].
    { by apply insert_sorted_sorted. }
    split; [done|]. rewrite Hp, insert_sorted_perm.
    apply Permutation_middle.
Qed.

Lemma insertion_sort_merge_sort l :
  foldl (fun buf x => insert_sorted o x buf) [] l = merge_sort (precedes o) l.
Proof.
  destruct (foldl_insert_sorted [] l) as [Hs Hp]; [constructor|].
  apply sorted_unique; [done|apply merge_sort_sorted|].
  by rewrite merge_sort_Permutation.
Qed.

Lemma select_k_host_sort k l :
  select_k_host o k l = take k (merge_sort (precedes o) l).
Proof.
  unfold select_k_host. rewrite <- insertion_sort_merge_sort.
  rewrite <- foldl_push_bounded. by rewrite take_nil.
Qed.

(** *** Accelerator selector *)

Lemma best_of_spec x l :
  best_of o x l ∈ x :: l ∧ Forall (precedes o (best_of o x l)) (x :: l).
Proof.
  unfold best_of. revert x. induction l as [|y l IH]; intros x; simpl.
  - split; [left|]. apply Forall_cons. split; [reflexivity|constructor].
  - destruct (IH (if decide (precedes o x y) then x else y)) as [Hin Hall].
    apply Forall_cons in Hall as [Hb Hall].
    case_decide as Hxy.
    + split.
      * apply elem_of_cons in Hin as [->|Hin]; [left|do 2 right]; done.
      * apply Forall_cons. split; [done|].
        apply Forall_cons. split; [by etrans|done].
    + apply not_precedes in Hxy. split.
      * apply elem_of_cons in Hin as [->|Hin]; [right; left|do 2 right]; done.
      * apply Forall_cons. split; [by etrans|].
        apply Forall_cons. by split.
Qed.

Lemma retire_perm x l : x ∈ l → l ≡ₚ x :: retire x l.
Proof.
  induction l as [|y l IH]; intros Hin; [by apply elem_of_nil in Hin|].
  simpl. case_decide as Hxy; [by subst|].
  apply elem_of_cons in Hin as [->|Hin]; [done|].
  etrans; [apply perm_skip, IH, Hin|apply Permutation_swap].
Qed.

(** The best candidate followed by the ordering of the rest is the
    ordering of the whole. *)
Lemma merge_sort_best x l :
  merge_sort (precedes o) (x :: l)
  = best_of o x l :: merge_sort (precedes o) (retire (best_of o x l) (x :: l)).
Proof.
  destruct (best_of_spec x l) as [Hin Hall].
  pose proof (retire_perm _ _ Hin) as Hp.
  apply sorted_unique; [apply merge_sort_sorted| |].
  - constructor; [apply merge_sort_sorted|].
    rewrite merge_sort_Permutation.
    rewrite Hp in Hall. by apply Forall_cons in Hall as [_ ?].
  - by rewrite !merge_sort_Permutation.
Qed.

Lemma select_k_device_sort k l :
  select_k_device o k l = take k (merge_sort (precedes o) l).
Proof.
  revert l. induction k as [|k IH]; intros l; [done|].
  destruct l as [|x l]; [done|].
  rewrite merge_sort_best. simpl. by rewrite IH.
Qed.

End order.

(** *** Scheduling: every context runs every task once *)

Section scheduling.

Lemma run_order_perm fuel choices ready :
  (length ready ≤ fuel)%nat → run_order fuel choices ready ≡ₚ ready.
Proof.
  revert choices ready. induction fuel as [|fuel IH]; intros choices ready Hlen.
  - destruct ready; [done|simpl in Hlen; lia].
  - simpl. destruct ready as [|r ready']; [done|].
    set (ready := r :: ready') in *.
    set (j := (hd 0 choices mod length ready)%nat).
    assert (j < length ready)%nat as Hj.
    { apply Nat.mod_upper_bound. subst ready. simpl. lia. }
    destruct (lookup_lt_is_Some_2 ready j Hj) as [t Ht]. rewrite Ht.
    etrans; [|symmetry; apply (delete_Permutation ready j t Ht)].
    constructor. apply IH. rewrite length_delete by eauto. lia.
Qed.

Lemma parallel_for_order {S : Type} handle n (body : nat → S → S) s :
  ∃ order, order ≡ₚ seq 0 n
    ∧ parallel_for handle n body s = foldl (fun s i => body i s) s order.
Proof.
  eexists. split; [|reflexivity].
  apply run_order_perm. by rewrite length_seq.
Qed.

Context {A : Type} (f : nat → A).

Lemma foldl_insert_length buf order :
  length (foldl (fun s i => <[i := f i]> s) buf order) = length buf.
Proof.
  revert buf. induction order as [|j order IH]; intros buf; simpl; [done|].
  by rewrite IH, length_insert.
Qed.

Lemma foldl_insert_lookup buf order i :
  (i < length buf)%nat →
  foldl (fun s i => <[i := f i]> s) buf order !! i
  = if decide (i ∈ order) then Some (f i) else buf !! i.
Proof.
  revert buf. induction order as [|j order IH]; intros buf Hi; cbn [foldl].
  - rewrite decide_False; [done|apply not_elem_of_nil].
  - rewrite IH by (by rewrite length_insert).
    destruct (decide (i = j)) as [->|Hne].
    + rewrite list_lookup_insert_eq by done.
      rewrite (decide_True (P := j ∈ j :: order)) by left.
      by case_decide.
    + rewrite list_lookup_insert_ne by done.
      case_decide as Hin.
      * rewrite decide_True; [done|by right].
      * rewrite decide_False; [done|].
        intros [?|?]%elem_of_cons; done.
Qed.

Lemma foldl_insert_fill buf order n :
  order ≡ₚ seq 0 n → length buf = n →
  foldl (fun s i => <[i := f i]> s) buf order = f <$> seq 0 n.
Proof.
  intros Hp Hlen. apply list_eq. intros i.
  destruct (decide (i < n)%nat) as [Hi|Hi].
  - rewrite foldl_insert_lookup by lia.
    rewrite decide_True by (rewrite Hp; apply elem_of_seq; lia).
    by rewrite list_lookup_fmap, lookup_seq_lt.
  - rewrite !lookup_ge_None_2; [done| |].
    + rewrite length_fmap, length_seq. lia.
    + rewrite foldl_insert_length. lia.
Qed.

Lemma parallel_for_fill handle n buf :
  length buf = n →
  parallel_for handle n (fun i s => <[i := f i]> s) buf = f <$> seq 0 n.
Proof.
  intros Hlen.
  destruct (parallel_for_order handle n (fun i s => <[i := f i]> s) buf)
    as (order & Hp & ->).
  by apply foldl_insert_fill.
Qed.

End scheduling.

(** *** The driver computes the reference rows *)

Section driver.

Lemma zip_fmap_self {A B : Type} (f : A → B) (l : list A) :
  zip (f <$> l) l = (fun x => (f x, x)) <$> l.
Proof. induction l as [|x l IH]; [done|]. cbn. f_equal. exact IH. Qed.

(** Whatever the order of the lanes, the distance buffer ends up holding
    the distances in candidate order. *)
Lemma evaluate_lanes handle metric D q (c : list Z) :
  parallel_for handle (length c)
    (fun j (buf : list Z) =>
       <[j := candidate_distance metric D q (default 0 (c !! j))]> buf)
    (replicate (length c) 0)
  = evaluate metric D q c.
Proof.
  rewrite (parallel_for_fill
             (fun j => candidate_distance metric D q (default 0 (c !! j))))
    by apply length_replicate.
  unfold evaluate. apply list_eq. intros i.
  rewrite !list_lookup_fmap.
  destruct (c !! i) as [x|] eqn:Hi.
  - rewrite lookup_seq_lt by (by eapply lookup_lt_Some). simpl. by rewrite Hi.
  - rewrite lookup_seq_ge; [done|]. by apply lookup_ge_None.
Qed.

Lemma refine_row_brute_force space handle metric k D q c :
  refine_row space handle metric k D q c = brute_force_topk metric k D q c.
Proof.
  unfold brute_force_topk, exact_sort. destruct space; simpl.
  - unfold refine_row_host, evaluate.
    by rewrite select_k_host_sort, zip_fmap_self.
  - unfold refine_row_device. rewrite evaluate_lanes. unfold evaluate.
    by rewrite select_k_device_sort, zip_fmap_self.
Qed.

Lemma foldl_refine_task space handle metric k D Q C order I Ds :
  foldl (fun s i => refine_task space handle metric k D Q C i s) (I, Ds) order
  = (foldl (fun s i =>
              <[i := (brute_force_topk metric k D (default [] (Q !! i))
                        (default [] (C !! i))).*2]> s) I order,
     foldl (fun s i =>
              <[i := (brute_force_topk metric k D (default [] (Q !! i))
                        (default [] (C !! i))).*1]> s) Ds order).
Proof.
  revert I Ds. induction order as [|i order IH]; intros I Ds; simpl; [done|].
  unfold refine_task at 2. rewrite refine_row_brute_force. simpl. apply IH.
Qed.

Lemma parallel_for_refine_task space handle metric k D Q C m I Ds :
  length I = m → length Ds = m →
  parallel_for handle m (refine_task space handle metric k D Q C) (I, Ds)
  = (indices_of (reference_rows metric k D Q C m),
     distances_of (reference_rows metric k D Q C m)).
Proof.
  intros HI HDs.
  destruct (parallel_for_order handle m
              (refine_task space handle metric k D Q C) (I, Ds))
    as (order & Hp & ->).
  rewrite foldl_refine_task. unfold indices_of, distances_of, reference_rows.
  rewrite <- !list_fmap_compose.
  f_equal; by apply foldl_insert_fill.
Qed.

Lemma load_Some mem v M :
  load mem v = Some M →
  mem !! view_buffer v = Some M ∧ length M = extent0 v
  ∧ Forall (fun r => length r = extent1 v) M.
Proof.
  unfold load, shape_ok. destruct (mem !! view_buffer v) as [M'|]; [|done].
  destruct (_ && _) eqn:Hs; [|done]. intros [= ->].
  apply andb_prop in Hs as [Hl Hr]. apply Nat.eqb_eq in Hl.
  split; [done|]. split; [done|].
  apply Forall_forall. intros r Hin.
  apply Nat.eqb_eq. rewrite forallb_forall in Hr. apply Hr.
  by apply list_elem_of_In.
Qed.

(** Every call, on either path and under every schedule, is the exact
    call. *)
Lemma refine_exact handle mem ds qs cs iv dv metric :
  refine handle mem ds qs cs iv dv metric = exact_refine mem ds qs cs iv dv metric.
Proof.
  unfold refine, exact_refine.
  destruct (load mem ds) as [D|]; simpl; [|done].
  destruct (load mem qs) as [Q|]; simpl; [|done].
  destruct (load mem cs) as [C|]; simpl; [|done].
  destruct (load mem iv) as [I|] eqn:HI; simpl; [|done].
  destruct (load mem dv) as [Ds|] eqn:HDs; simpl; [|done].
  destruct (validate ds qs cs iv dv C) eqn:Hv; [|done].
  apply load_Some in HI as (_ & HIl & _).
  apply load_Some in HDs as (_ & HDl & _).
  unfold validate in Hv. repeat (apply andb_prop in Hv as [Hv ?]).
  rewrite parallel_for_refine_task; [done| |].
  - rewrite HIl. by apply Nat.eqb_eq.
  - rewrite HDl. by apply Nat.eqb_eq.
Qed.


(** What a returned memory tells about the call. *)
Lemma exact_refine_Some mem ds qs cs iv dv metric mem' :
  exact_refine mem ds qs cs iv dv metric = Some mem' →
  ∃ D Q C I Ds,
    load mem ds = Some D ∧ load mem qs = Some Q ∧ load mem cs = Some C
    ∧ load mem iv = Some I ∧ load mem dv = Some Ds
    ∧ validate ds qs cs iv dv C = true
    ∧ mem' = <[view_buffer dv :=
                 distances_of (reference_rows metric (extent1 iv) D Q C (extent0 qs))]>
             (<[view_buffer iv :=
                 indices_of (reference_rows metric (extent1 iv) D Q C (extent0 qs))]>
              mem).
Proof.
  unfold exact_refine.
  destruct (load mem ds) as [D|]; simpl; [|done].
  destruct (load mem qs) as [Q|]; simpl; [|done].
  destruct (load mem cs) as [C|]; simpl; [|done].
  destruct (load mem iv) as [I|]; simpl; [|done].
  destruct (load mem dv) as [Ds|]; simpl; [|done].
  destruct (validate ds qs cs iv dv C) eqn:Hv; [|done].
  intros [= <-]. by exists D, Q, C, I, Ds.
Qed.

End driver.

(** *** Reading the returned memory *)

Section outputs.








(** The buffers read back after an accepted call. *)
Lemma refine_Some handle mem ds qs cs iv dv metric mem' :
  refine handle mem ds qs cs iv dv metric = Some mem' →
  ∃ D Q C rows,
    load mem ds = Some D ∧ load mem qs = Some Q ∧ load mem cs = Some C
    ∧ validate ds qs cs iv dv C = true
    ∧ rows = reference_rows metric (extent1 iv) D Q C (extent0 qs)
    ∧ mem' = <[view_buffer dv := distances_of rows]>
               (<[view_buffer iv := indices_of rows]> mem).
Proof.
  rewrite refine_exact. intros H.
  apply exact_refine_Some in H as (D & Q & C & I & Ds & ? & ? & ? & ? & ? & ? & ->).
  by eexists D, Q, C, _.
Qed.

End outputs.

(** *** The properties of the design document *)

Section properties.

(** The two example scenarios of the design document: rows 5, 2 and 9 at
    squared distances 1, 4 and 18 give [5; 2] with distances [1; 4]; rows 7
    and 3, both at distance 1, come out as [3; 7]. *)
Example design_scenario space :
  refine_row space Example.other_handle L2Expanded 2 Example.dataset_rows [0; 0] [5; 2; 9]
  = [(1, 5); (4, 2)].
Proof. destruct space; vm_compute; reflexivity. Qed.

Example design_scenario_tie space :
  refine_row space Example.other_handle L2Expanded 2 Example.dataset_rows [0; 0] [7; 3]
  = [(1, 3); (1, 7)].
Proof. destruct space; vm_compute; reflexivity. Qed.

(** A repeated candidate gives two output entries. *)
Example design_scenario_repeated space :
  refine_row space Example.handle L2Expanded 3 Example.dataset_rows [0; 0] [7; 2; 7]
  = [(1, 7); (1, 7); (4, 2)].
Proof. destruct space; vm_compute; reflexivity. Qed.










(** On the example call both paths return the rows [5; 7] and [3; 7]. *)
Example refine_host_device_example :
  refine Example.handle Example.mem
    (in_space Generator.Host Example.dataset) (in_space Generator.Host Example.queries)
    (in_space Generator.Host Example.neighbor_candidates)
    (in_space Generator.Host Example.indices)
    (in_space Generator.Host Example.distances) L2Expanded
  = Some (<[4%nat := [[1; 1]; [1; 1]]]> (<[3%nat := [[5; 7]; [3; 7]]]> Example.mem))
  ∧ refine Example.other_handle Example.mem
      (in_space Generator.Device Example.dataset)
      (in_space Generator.Device Example.queries)
      (in_space Generator.Device Example.neighbor_candidates)
      (in_space Generator.Device Example.indices)
      (in_space Generator.Device Example.distances) L2Expanded
    = Some (<[4%nat := [[1; 1]; [1; 1]]]> (<[3%nat := [[5; 7]; [3; 7]]]> Example.mem)).
Proof. split; vm_compute; reflexivity. Qed.



(** C7. Frame: an accepted call changes no buffer other than the two output
    buffers; in particular, the outputs not being aliased with the dataset or
    the queries, these two hold after the call what they held before. *)
Theorem refine_writes_only_outputs handle mem ds qs cs iv dv metric mem' :
  refine handle mem ds qs cs iv dv metric = Some mem' →
  view_buffer ds ≠ view_buffer iv → view_buffer ds ≠ view_buffer dv →
  view_buffer qs ≠ view_buffer iv → view_buffer qs ≠ view_buffer dv →
  mem' !! view_buffer ds = mem !! view_buffer ds
  ∧ mem' !! view_buffer qs = mem !! view_buffer qs
  ∧ load mem' ds = load mem ds
  ∧ load mem' qs = load mem qs
  ∧ ∀ b, b ≠ view_buffer iv → b ≠ view_buffer dv → mem' !! b = mem !! b.
Proof.
  intros (D & Q & C & rows & _ & _ & _ & _ & _ & ->)%refine_Some ? ? ? ?.
  assert (∀ b, b ≠ view_buffer iv → b ≠ view_buffer dv →
            <[view_buffer dv := distances_of rows]>
              (<[view_buffer iv := indices_of rows]> mem) !! b = mem !! b) as Hframe.
  { intros b ? ?. by rewrite !lookup_insert_ne. }
  unfold load. rewrite !Hframe by done. done.
Qed.

Lemma refine_writes_only_outputs_witness :
  <[4%nat := [[1; 1]; [1; 1]]]> (<[3%nat := [[5; 7]; [3; 7]]]> Example.mem) !! 0%nat
  = Example.mem !! 0%nat
  ∧ <[4%nat := [[1; 1]; [1; 1]]]> (<[3%nat := [[5; 7]; [3; 7]]]> Example.mem) !! 1%nat
    = Example.mem !! 1%nat
  ∧ load (<[4%nat := [[1; 1]; [1; 1]]]> (<[3%nat := [[5; 7]; [3; 7]]]> Example.mem))
      Example.dataset
    = load Example.mem Example.dataset
  ∧ load (<[4%nat := [[1; 1]; [1; 1]]]> (<[3%nat := [[5; 7]; [3; 7]]]> Example.mem))
      Example.queries
    = load Example.mem Example.queries
  ∧ ∀ b, b ≠ 3%nat → b ≠ 4%nat →
      <[4%nat := [[1; 1]; [1; 1]]]> (<[3%nat := [[5; 7]; [3; 7]]]> Example.mem) !! b
      = Example.mem !! b.
Proof.
  apply (refine_writes_only_outputs
           Example.other_handle Example.mem Example.dataset Example.queries
           Example.neighbor_candidates Example.indices Example.distances L2Expanded);
    solve [vm_compute; reflexivity | discriminate].
Defined.

End properties.

End RefineFacts.
